(** * ObsidianRAG: the retrieval pipeline of [RAG_init.py]

    A shallow embedding of the script: the markdown loader, the prompt
    templates, the retrieval chain, the response formatter and the
    interactive loop, with the external collaborators (file system,
    embedding provider, language model) as fields of a [World]. *)

From Stdlib Require Import String Ascii List Bool Arith Lia.
From Stdlib Require Import QArith Lqa.
From Stdlib Require Import Sorted Permutation.
Import ListNotations.

Local Open Scope nat_scope.
Local Open Scope list_scope.
Local Open Scope string_scope.

(** ** Python strings and POSIX paths *)

Definition nl : string := String "010"%char EmptyString.

(** [s.startswith(p)] *)
Definition startswith (s p : string) : bool := String.prefix p s.

(** [s.endswith(suffix)] *)
Definition endswith (s suffix : string) : bool :=
  let n := String.length s in
  let m := String.length suffix in
  (m <=? n)%nat && String.eqb (substring (n - m) m s) suffix.

(** [str.lower] on the ASCII letters; the bytes of other characters are
    kept, and none of them lowers to a letter of [exit] or [quit]. *)
Definition lower_ascii (c : ascii) : ascii :=
  let n := nat_of_ascii c in
  if ((65 <=? n) && (n <=? 90))%nat then ascii_of_nat (n + 32) else c.

Fixpoint lower (s : string) : string :=
  match s with
  | EmptyString => EmptyString
  | String c r => String (lower_ascii c) (lower r)
  end.

(** [x in [a, b, ...]] on strings *)
Fixpoint str_in (x : string) (l : list string) : bool :=
  match l with
  | [] => false
  | y :: l' => String.eqb x y || str_in x l'
  end.

(** [sep.join(parts)] *)
Fixpoint str_join (sep : string) (parts : list string) : string :=
  match parts with
  | [] => ""
  | [p] => p
  | p :: rest => p ++ sep ++ str_join sep rest
  end.

(** The NUL character, and the paths that hold one: the operating system
    takes no such path, and [os.scandir] refuses it with a [ValueError]. *)
Definition nul : string := String "000"%char EmptyString.

Fixpoint has_nul (s : string) : bool :=
  match s with
  | EmptyString => false
  | String c r => Ascii.eqb c "000" || has_nul r
  end.

Definition null_byte_message : string := "embedded null byte".

(** [os.path.join(a, b)] of posixpath, for two arguments. *)
Definition path_join (a b : string) : string :=
  if startswith b "/" then b
  else if String.eqb a "" || endswith a "/" then a ++ b
  else a ++ "/" ++ b.

(** ** The directory tree and [os.walk]

    A directory lists its sub-directories and its other entries.
    [Unlisted] is a directory that [os.walk] gets nothing from: listing it
    fails, or it is a symbolic link, which is named but not entered. *)
#[local] Unset Elimination Schemes.
Inductive dir : Type :=
| Unlisted
| Dir (subdirs : list (string * dir)) (files : list string).
#[local] Set Elimination Schemes.

Definition walk_item : Type := (string * list string * list string)%type.

(** [os.walk(top)], top-down, [onerror=None]: the triple of [top], then
    the walks of the sub-directories in the order they are listed;
    a directory that cannot be listed yields nothing. *)
Fixpoint os_walk_dir (top : string) (d : dir) : list walk_item :=
  match d with
  | Unlisted => []
  | Dir subdirs files =>
      (top, map fst subdirs, files) ::
      flat_map (fun entry : string * dir =>
                  os_walk_dir (path_join top (fst entry)) (snd entry)) subdirs
  end.


(** *** File systems as they are

    A file name is not empty and has no [/] in it, and a directory lists
    no name twice. *)
Fixpoint no_slash (s : string) : bool :=
  match s with
  | EmptyString => true
  | String c r => negb (Ascii.eqb c "/") && no_slash r
  end.

Definition proper_name (s : string) : bool :=
  negb (String.eqb s "") && no_slash s.

Fixpoint distinct (l : list string) : bool :=
  match l with
  | [] => true
  | x :: l' => negb (str_in x l') && distinct l'
  end.

Fixpoint well_formed (d : dir) : bool :=
  match d with
  | Unlisted => true
  | Dir subdirs files =>
      distinct (map fst subdirs) && distinct files
      && forallb proper_name (map fst subdirs) && forallb proper_name files
      && forallb (fun entry : string * dir => well_formed (snd entry)) subdirs
  end.

(** The files of a tree whose name ends in [.md], each as the names from
    the top of the tree down to the file, in the order of the walk. *)
Fixpoint eligible_components (d : dir) : list (list string) :=
  match d with
  | Unlisted => []
  | Dir subdirs files =>
      (map (fun f => [f]) (filter (fun f => endswith f ".md") files)
       ++ flat_map (fun entry : string * dir =>
                      map (cons (fst entry)) (eligible_components (snd entry)))
                   subdirs)%list
  end.

(** What [os.path.join] puts before the first name joined to [top]. *)
Definition dir_prefix (top : string) : string :=
  if String.eqb top "" || endswith top "/" then top else top ++ "/".

(** ** Data model *)

(** A LangChain [Document]: the text and [metadata["source"]]. *)
Record Document : Type := mkDocument {
  page_content : string;
  metadata_source : string
}.

(** The exceptions of the script, all of them subclasses of [Exception]:
    [ValueError] is raised by the loader itself and by [os.walk] on a path
    with a NUL byte, [KeyError] by a template with a missing field,
    [EOFError] by [input()]; [ExternalError] stands for what a
    collaborator raises. What is no [Exception] and passes an
    [except Exception] ([KeyboardInterrupt], [SystemExit]) is outside the
    model: no statement below says how an interrupted process ends. *)
Inductive exn : Type :=
| ValueError (msg : string)
| KeyError (key : string)
| EOFError
| ExternalError (msg : string).

(** [str(e)], as an f-string prints it. *)
Definition str_exn (e : exn) : string :=
  match e with
  | ValueError msg => msg
  | KeyError key => "'" ++ key ++ "'"
  | EOFError => ""
  | ExternalError msg => msg
  end.

Inductive role : Type := SystemRole | HumanRole.

Record Message : Type := mkMessage {
  msg_role : role;
  msg_content : string
}.

(** What the process does to the outside, in order. *)
Inductive event : Type :=
| Print (line : string)
| Input (prompt : string)
| Embed (text : string)
| Generate (messages : list Message).

Inductive outcome (A : Type) : Type :=
| Ok (a : A)
| Raise (e : exn).
Arguments Ok {A} a.
Arguments Raise {A} e.

(** ** Effects: a trace of events and either a value or an exception *)

Definition M (A : Type) : Type := (list event * outcome A)%type.

Definition ret {A} (a : A) : M A := ([], Ok a).
Definition raise {A} (e : exn) : M A := ([], Raise e).
Definition emit (ev : event) : M unit := ([ev], Ok tt).
Definition print (line : string) : M unit := emit (Print line).

Definition bind {A B} (m : M A) (f : A -> M B) : M B :=
  match m with
  | (t, Ok a) => let (t', r) := f a in ((t ++ t')%list, r)
  | (t, Raise e) => (t, Raise e)
  end.

(** [try: m except Exception as e: h e] *)
Definition try_except {A} (m : M A) (h : exn -> M A) : M A :=
  match m with
  | (t, Ok a) => (t, Ok a)
  | (t, Raise e) => let (t', r) := h e in ((t ++ t')%list, r)
  end.

Notation "x <- m ;; k" := (bind m (fun x => k))
  (at level 61, m at next level, right associativity).
Notation "m ;;; k" := (bind m (fun _ => k))
  (at level 61, right associativity).

(** An answer of a collaborator: it fails with a message or gives a value. *)
Inductive reply (A : Type) : Type :=
| Fails (msg : string)
| Gives (a : A).
Arguments Fails {A} msg.
Arguments Gives {A} a.

Definition call {A} (ev : event) (r : reply A) : M A :=
  match r with
  | Gives a => ([ev], Ok a)
  | Fails msg => ([ev], Raise (ExternalError msg))
  end.

Definition lift {A} (r : outcome A) : M A := ([], r).

(** A constructor of a collaborator's client object: no call goes out,
    but the construction can fail. *)
Definition construct {A} (r : reply A) : M A :=
  match r with
  | Gives a => ret a
  | Fails msg => raise (ExternalError msg)
  end.

(** ** The prompt templates (Step 2 of the script) *)

Inductive segment : Type :=
| Lit (text : string)
| Field (name : string).

Definition template : Type := list segment.

(** [system_template]: the text before [{context}], then the field. *)
Definition system_instruction : string :=
  "The files returned in this rag pipeline are markdown files from an obsidian template. " ++ nl ++
  "Items are formatted in a to do list. For example:" ++ nl ++
  "    -[ ] means that a task need to be done" ++ nl ++
  "    -[x] means that the task has been completed. " ++ nl ++
  "    " ++ nl ++
  "When asking about to do items, please ignore completed tasks, and only return uncompleted tasks.  " ++ nl ++
  "----------------" ++ nl.

Definition system_template : template := [Lit system_instruction; Field "context"].
Definition human_template : template := [Field "question"].

Definition ChatPromptTemplate : Type := list (role * template).

Definition chat_prompt : ChatPromptTemplate :=
  [(SystemRole, system_template); (HumanRole, human_template)].

Fixpoint kwargs_get (kwargs : list (string * string)) (name : string) : outcome string :=
  match kwargs with
  | [] => Raise (KeyError name)
  | (k, v) :: rest => if String.eqb k name then Ok v else kwargs_get rest name
  end.

(** [template.format] with keyword arguments *)
Fixpoint format_template (t : template) (kwargs : list (string * string)) : outcome string :=
  match t with
  | [] => Ok ""
  | Lit text :: t' =>
      match format_template t' kwargs with
      | Ok rest => Ok (text ++ rest)
      | Raise e => Raise e
      end
  | Field name :: t' =>
      match kwargs_get kwargs name with
      | Ok v =>
          match format_template t' kwargs with
          | Ok rest => Ok (v ++ rest)
          | Raise e => Raise e
          end
      | Raise e => Raise e
      end
  end.

(** [prompt.format_messages] with keyword arguments *)
Fixpoint format_messages (p : ChatPromptTemplate) (kwargs : list (string * string))
  : outcome (list Message) :=
  match p with
  | [] => Ok []
  | (r, t) :: p' =>
      match format_template t kwargs with
      | Ok content =>
          match format_messages p' kwargs with
          | Ok rest => Ok (mkMessage r content :: rest)
          | Raise e => Raise e
          end
      | Raise e => Raise e
      end
  end.

(** ** The response of the chain and its formatter *)

Record Response : Type := mkResponse {
  query : string;
  result : string;
  source_documents : list Document
}.

Definition format_response (response : Response) : string :=
  "Response: " ++ result response ++ nl.

(** Truth value of a Python string. *)
Definition truthy (s : string) : bool := negb (String.eqb s "").

(** ** The embedding index

    The vector store is FAISS's, which the repository calls and
    configures but does not implement: its entries, the order of its
    results and its search are modelled from the spec. Scores are finite
    floating-point numbers, taken as the rationals they denote. *)

(** Modelled from the spec: an entry of the index (the vector store of
    FAISS), a vector and the document it was computed from. *)
Record IndexEntry (Vec : Type) : Type := mkEntry {
  vector : Vec;
  document : Document
}.
Arguments mkEntry {Vec} _ _.
Arguments vector {Vec} _.
Arguments document {Vec} _.

(** Modelled from the spec: an element of a retrieval result (FAISS's
    search), an entry scored against a query: its insertion position, its
    similarity to the query and its document. *)
Record Ranked : Type := mkRanked {
  position : nat;
  score : Q;
  ranked_doc : Document
}.

(** Modelled from the spec: the order of a retrieval result (FAISS's
    search). [a] comes before [b]: a higher score, or the same score and
    an earlier insertion. *)
Definition outranks (a b : Ranked) : bool :=
  negb (Qle_bool (score a) (score b))
  || (Qeq_bool (score a) (score b) && (position a <? position b)%nat).

(** [a] is at or before the place of [b]: the order of a result. *)
Definition at_or_before (a b : Ranked) : Prop :=
  (score b < score a)%Q \/ ((score a == score b)%Q /\ position a <= position b).

(** [a] comes before [b] in a result: its score is not lower, and on a
    tie it was inserted first. *)
Definition ranks_before (a b : Ranked) : Prop :=
  (score b <= score a)%Q /\ ((score a == score b)%Q -> position a < position b).

(** Modelled from the spec: the ranking of the scored entries (FAISS's
    search), each put at its place among those ranked so far. *)
Fixpoint insert_ranked (x : Ranked) (l : list Ranked) : list Ranked :=
  match l with
  | [] => [x]
  | y :: l' => if outranks x y then x :: l else y :: insert_ranked x l'
  end.

Definition rank_all (l : list Ranked) : list Ranked :=
  fold_right insert_ranked [] l.

(** ** The external collaborators

    Everything the script reaches outside itself: the file system below
    the path the user gives, the text of each file, the embedding
    provider, the similarity of two vectors and the language model. The
    query-time calls depend on how many queries the session has answered
    ([nat]), so that a provider may fail on one query and serve the next.
    [document_separator] is what the [stuff] chain puts between two
    documents, a setting of LangChain that the script leaves alone. *)
Record World (Vec : Type) : Type := mkWorld {
  tree_at : string -> option dir;
  read_text : string -> reply string;
  embeddings_new : reply unit;
  embed_document : string -> reply Vec;
  embed_query : nat -> string -> reply Vec;
  similarity : Vec -> Vec -> Q;
  llm_new : reply unit;
  generate : nat -> list Message -> reply string;
  document_separator : string
}.
Arguments tree_at {Vec} _ _.
Arguments read_text {Vec} _ _.
Arguments embeddings_new {Vec} _.
Arguments embed_document {Vec} _ _.
Arguments embed_query {Vec} _ _ _.
Arguments similarity {Vec} _ _ _.
Arguments llm_new {Vec} _.
Arguments generate {Vec} _ _ _.
Arguments document_separator {Vec} _.

Definition Index (Vec : Type) : Type := list (IndexEntry Vec).

Record Retriever (Vec : Type) : Type := mkRetriever {
  retriever_vectorstore : Index Vec;
  search_k : nat
}.
Arguments mkRetriever {Vec} _ _.
Arguments retriever_vectorstore {Vec} _.
Arguments search_k {Vec} _.

Record RetrievalQA (Vec : Type) : Type := mkRetrievalQA {
  qa_retriever : Retriever Vec;
  qa_prompt : ChatPromptTemplate
}.
Arguments mkRetrievalQA {Vec} _ _.
Arguments qa_retriever {Vec} _.
Arguments qa_prompt {Vec} _.

(** How the process ends: [exit(code)], an exception nobody caught, or
    the end of the script. *)
Inductive status : Type :=
| Exited (code : nat)
| Uncaught (e : exn)
| Finished.

Definition no_documents_message : string :=
  "No markdown files were found. Ensure the directory contains valid .md files.".

Section Pipeline.

Context {Vec : Type} (w : World Vec).

(** [os.walk(directory_path)] on the file system of the world. It is a
    generator: [os_walk] is the triples it yields to the loop and
    [os_walk_end] the exception that ends it, if one does. A path that is
    no directory or cannot be listed fails inside with an [OSError], which
    [os.walk] swallows: nothing is yielded and nothing raised. A path
    with a NUL byte is refused with a [ValueError], which [os.walk] lets
    through: nothing is yielded and the loop ends with that exception. *)
Definition os_walk (top : string) : list walk_item :=
  if has_nul top then []
  else match tree_at w top with
       | Some d => os_walk_dir top d
       | None => []
       end.

Definition os_walk_end (top : string) : option exn :=
  if has_nul top then Some (ValueError null_byte_message) else None.

(** The end of a generator, as the [for] loop over it sees it. *)
Definition end_of (ending : option exn) : M unit :=
  match ending with
  | Some e => raise e
  | None => ret tt
  end.

(** [TextLoader(filepath).load()]: one document, whose source is the path. *)
Definition TextLoader_load (filepath : string) : M (list Document) :=
  match read_text w filepath with
  | Gives text => ret [mkDocument text filepath]
  | Fails msg => raise (ExternalError msg)
  end.

(** *** Step 1: the loader *)

(** The inner loop, [for filename in files]. *)
Fixpoint load_files (root : string) (files : list string) (docs : list Document)
  : M (list Document) :=
  match files with
  | [] => ret docs
  | filename :: rest =>
      if endswith filename ".md" then
        let filepath := path_join root filename in
        docs' <- try_except
                   (loaded <- TextLoader_load filepath ;; ret (docs ++ loaded)%list)
                   (fun e =>
                      print ("Error loading file " ++ filepath ++ ": " ++ str_exn e) ;;;
                      ret docs) ;;
        load_files root rest docs'
      else load_files root rest docs
  end.

(** The outer loop, [for root, _, files in os.walk(directory_path)]. *)
Fixpoint load_walk (items : list walk_item) (docs : list Document)
  : M (list Document) :=
  match items with
  | [] => ret docs
  | (root, _, files) :: rest =>
      docs' <- load_files root files docs ;;
      load_walk rest docs'
  end.

(** Modelled from the spec: [FAISS.from_documents(docs, embeddings)], the
    index construction of the vector store, which the repository calls but
    does not implement. One call of the embedding provider per document,
    in order; all (vector, document) pairs are stored; a failing call fails
    the construction. *)
Fixpoint from_documents (docs : list Document) : M (Index Vec) :=
  match docs with
  | [] => ret []
  | d :: rest =>
      v <- call (Embed (page_content d)) (embed_document w (page_content d)) ;;
      entries <- from_documents rest ;;
      ret (mkEntry v d :: entries)
  end.

(** The second half of the function: the embeddings client, then the
    vector store inside its [try]. *)
Definition build_vectorstore (docs : list Document) : M (Index Vec) :=
  embeddings <- construct (embeddings_new w) ;;
  try_except (from_documents docs)
             (fun e =>
                print ("Error creating vectorstore: " ++ str_exn e) ;;;
                raise e).

Definition load_and_embed_markdown (directory_path : string) : M (Index Vec) :=
  docs <- load_walk (os_walk directory_path) [] ;;
  end_of (os_walk_end directory_path) ;;;
  match docs with
  | [] => raise (ValueError no_documents_message)
  | _ :: _ => build_vectorstore docs
  end.

(** *** The similarity search of the index *)

(** Modelled from the spec: the similarity of the query vector to every
    stored vector (FAISS's search), each entry with the position at which
    it was inserted. *)
Fixpoint score_entries (qv : Vec) (start : nat) (index : Index Vec) : list Ranked :=
  match index with
  | [] => []
  | e :: rest =>
      mkRanked start (similarity w qv (vector e)) (document e)
      :: score_entries qv (S start) rest
  end.

(** Modelled from the spec: the nearest-neighbour search of the vector
    store (FAISS), which the repository configures but does not implement.
    The similarity of the query vector to every stored vector, the [k]
    highest-scoring entries in descending order of score, ties broken by
    insertion order, first-indexed first. *)
Definition search_with_score (index : Index Vec) (qv : Vec) (k : nat) : list Ranked :=
  firstn k (rank_all (score_entries qv 0 index)).


(** Modelled from the spec: [Index.search(query_text, k)], which embeds
    the query text through the provider and searches with its vector. *)
Definition search (index : Index Vec) (n : nat) (query_text : string) (k : nat)
  : M (list Ranked) :=
  qv <- call (Embed query_text) (embed_query w n query_text) ;;
  ret (search_with_score index qv k).

(** *** Step 3: the chain *)

Definition as_retriever (vectorstore : Index Vec) (k : nat) : Retriever Vec :=
  mkRetriever vectorstore k.

(** The API key goes to the client of the language model and nowhere
    else; a bad key is a failure of that client. *)
Definition setup_rag_chain (vectorstore : Index Vec) : M (RetrievalQA Vec) :=
  let retriever := as_retriever vectorstore 5 in
  llm <- construct (llm_new w) ;;
  ret (mkRetrievalQA retriever chat_prompt).

Definition get_relevant_documents (r : Retriever Vec) (n : nat) (q : string)
  : M (list Document) :=
  ranked <- search (retriever_vectorstore r) n q (search_k r) ;;
  ret (map ranked_doc ranked).

(** Modelled from the spec: the context that the [stuff] chain of
    LangChain builds, which the repository selects but does not
    implement: the raw texts of the retrieved documents, in order, with
    the separator between them. *)
Definition stuff_context (docs : list Document) : string :=
  str_join (document_separator w) (map page_content docs).

(** Modelled from the spec: the prompt assembly of the [stuff] chain of
    LangChain: the prompt of the chain formatted with the context and
    the question. *)
Definition assemble (p : ChatPromptTemplate) (docs : list Document) (question : string)
  : outcome (list Message) :=
  format_messages p [("context", stuff_context docs); ("question", question)].

(** Modelled from the spec: [chain.invoke({"query": query})] of
    [RetrievalQA] with the [stuff] chain type, which the repository
    configures but does not implement: retrieve, assemble the prompt, call
    the model, package the answer with its sources. *)
Definition invoke (chain : RetrievalQA Vec) (n : nat) (q : string) : M Response :=
  docs <- get_relevant_documents (qa_retriever chain) n q ;;
  messages <- lift (assemble (qa_prompt chain) docs q) ;;
  answer <- call (Generate messages) (generate w n messages) ;;
  ret (mkResponse q answer docs).

(** *** Step 5: one query *)

Definition execute_query (chain : RetrievalQA Vec) (n : nat) (q : string)
  : M (option string) :=
  try_except
    (response <- invoke chain n q ;; ret (Some (format_response response)))
    (fun e => print ("Error executing query: " ++ str_exn e) ;;; ret None).

(** *** The main script *)

(** A trace, then the rest of the run. *)
Definition after (t : list event) (run : list event * status) : list event * status :=
  ((t ++ fst run)%list, snd run).

(** The [while True] loop; [n] counts the queries asked so far and
    [stdin] holds the lines still to be read, each one a line that
    [input()] can decode: at the end of the input it raises [EOFError].
    An input of bytes that cannot be decoded is outside the model. *)
Fixpoint query_loop (rag_chain : RetrievalQA Vec) (n : nat) (stdin : list string)
  : list event * status :=
  match stdin with
  | [] => ([Input "Enter your query: "], Uncaught EOFError)
  | q :: stdin' =>
      if str_in (lower q) ["exit"; "quit"] then
        ([Input "Enter your query: "; Print "Goodbye!"], Finished)
      else
        match execute_query rag_chain n q with
        | (t, Ok response) =>
            let shown :=
              match response with
              | Some text => if truthy text then [Print text] else []
              | None => []
              end in
            after (Input "Enter your query: " :: t ++ shown)%list
                  (query_loop rag_chain (S n) stdin')
        | (t, Raise e) => ((Input "Enter your query: " :: t)%list, Uncaught e)
        end
  end.

Definition main (stdin : list string) : list event * status :=
  match stdin with
  | [] => ([Input "Path to your Obsidian Vault or Markdown Directory: "], Uncaught EOFError)
  | markdown_directory :: stdin' =>
      after [Input "Path to your Obsidian Vault or Markdown Directory: ";
             Print "Embedding markdown notes..."]
        match load_and_embed_markdown markdown_directory with
        | (t, Raise e) =>
            ((t ++ [Print ("Failed to embed markdown notes: " ++ str_exn e)])%list,
             Exited 1)
        | (t, Ok vectorstore) =>
            after (t ++ [Print "Setting up retrieval-augmented QA (RAG)..."])%list
              match setup_rag_chain vectorstore with
              | (t', Raise e) =>
                  ((t' ++ [Print ("Failed to set up RAG chain: " ++ str_exn e)])%list,
                   Exited 1)
              | (t', Ok rag_chain) =>
                  after (t' ++ [Print "Ready to query your notes! Type 'exit' or 'quit' to stop."])%list
                        (query_loop rag_chain 0 stdin')
              end
        end
  end.

(** *** Notions the statements use *)


(** The paths of the files the loader opens, in the order of the walk. *)
Definition eligible_paths (items : list walk_item) : list string :=
  flat_map (fun item : walk_item =>
              map (path_join (fst (fst item)))
                  (filter (fun f => endswith f ".md") (snd item))) items.

(** The documents of the paths that can be read. *)
Definition readable_docs (paths : list string) : list Document :=
  flat_map (fun p => match read_text w p with
                     | Gives text => [mkDocument text p]
                     | Fails _ => []
                     end) paths.

(** The lines printed for the paths that cannot be read. *)
Definition read_errors (paths : list string) : list event :=
  flat_map (fun p => match read_text w p with
                     | Gives _ => []
                     | Fails msg => [Print ("Error loading file " ++ p ++ ": " ++ msg)]
                     end) paths.

(** The documents a directory yields. *)
Definition yielded (path : string) : list Document :=
  readable_docs (eligible_paths (os_walk path)).

End Pipeline.

(** An event of the query phase: the prompt for a query, or a call of the
    language model. *)
Definition serves_query (ev : event) : Prop :=
  match ev with
  | Input prompt => prompt = "Enter your query: "
  | Generate _ => True
  | _ => False
  end.

(** ** A sample vault

    A small world to run the definitions on: a vault with a sub-directory,
    a directory that cannot be listed, a file that cannot be read, and an
    embedding provider that is down for the first query of a session. The
    vectors have one dimension, the length of the text. *)
Definition sample_tree : dir :=
  Dir [("sub", Dir [] ["b.md"; "c.txt"]); ("locked", Unlisted)]
      ["a.md"; "bad.md"; "notes.MD"].

Definition sample_world : World Q :=
  mkWorld Q
    (fun path =>
       if String.eqb path "vault" then Some sample_tree
       else if String.eqb path "empty" then Some (Dir [] [])
       else if String.eqb path "plain" then Some (Dir [] ["readme.txt"])
       else if String.eqb path "broken" then Some (Dir [] ["bad.md"])
       else if String.eqb path "archive"
            then Some (Dir [("2023", Dir [] ["bad.md"])] ["readme.txt"])
       else if String.eqb path "scrambled"
            then Some (Dir [("old", Dir [] ["bad.md"])] ["bad.md"; "todo.txt"])
       else if String.eqb path "locked" then Some Unlisted
       else None)
    (fun path =>
       if endswith path "bad.md" then Fails "cannot decode"
       else Gives ("text of " ++ path))
    (Gives tt)
    (fun text => Gives (inject_Z (Z.of_nat (String.length text))))
    (fun n text =>
       if Nat.eqb n 0 then Fails "provider unreachable"
       else Gives (inject_Z (Z.of_nat (String.length text))))
    (fun u v => - ((u - v) * (u - v)))%Q
    (Gives tt)
    (fun n messages => Gives "an answer")
    (nl ++ nl).

(** The same world with an embedding provider that is down at build time. *)
Definition sample_world_down : World Q :=
  mkWorld Q
    (tree_at sample_world) (read_text sample_world) (Gives tt)
    (fun text => Fails "provider unreachable")
    (embed_query sample_world) (similarity sample_world) (Gives tt)
    (generate sample_world) (document_separator sample_world).

(** The index of the sample vault and the chain over it. *)
Definition sample_index : Index Q :=
  [mkEntry (inject_Z 18) (mkDocument "text of vault/a.md" "vault/a.md");
   mkEntry (inject_Z 22) (mkDocument "text of vault/sub/b.md" "vault/sub/b.md")].

Definition sample_chain : RetrievalQA Q :=
  mkRetrievalQA (as_retriever sample_index 5) chat_prompt.

(** A world in which every path is an existing, empty directory. *)
Definition sample_world_bare : World Q :=
  mkWorld Q
    (fun _ => Some (Dir [] [])) (read_text sample_world) (Gives tt)
    (embed_document sample_world)
    (embed_query sample_world) (similarity sample_world) (Gives tt)
    (generate sample_world) (document_separator sample_world).

(** The same world with a language-model client that cannot be built. *)
Definition sample_world_no_llm : World Q :=
  mkWorld Q
    (tree_at sample_world) (read_text sample_world) (Gives tt)
    (embed_document sample_world)
    (embed_query sample_world) (similarity sample_world) (Fails "no API key")
    (generate sample_world) (document_separator sample_world).

(** The same world with an embeddings client that cannot be built. *)
Definition sample_world_no_embeddings : World Q :=
  mkWorld Q
    (tree_at sample_world) (read_text sample_world) (Fails "no API key")
    (embed_document sample_world)
    (embed_query sample_world) (similarity sample_world) (Gives tt)
    (generate sample_world) (document_separator sample_world).

(** The same world where the files that are not markdown cannot be read. *)
Definition sample_world_locked_others : World Q :=
  mkWorld Q
    (tree_at sample_world)
    (fun path => if endswith path ".md" then read_text sample_world path
                 else Fails "permission denied")
    (Gives tt) (embed_document sample_world)
    (embed_query sample_world) (similarity sample_world) (Gives tt)
    (generate sample_world) (document_separator sample_world).

(** ** Notions of the interactive loop *)

(** No line of the input is [exit] or [quit], in any case. *)
Definition no_exit_word (stdin : list string) : bool :=
  forallb (fun q => negb (str_in (lower q) ["exit"; "quit"])) stdin.

(** The prompt of the loop. *)
Definition is_query_prompt (ev : event) : bool :=
  match ev with
  | Input prompt => String.eqb prompt "Enter your query: "
  | _ => false
  end.

(** * Properties *)

(** ** Strings *)

Lemma string_app_nil_r (s : string) : s ++ "" = s.
Proof. induction s as [|c s IH]; simpl; [reflexivity | now rewrite IH]. Qed.

Lemma string_app_assoc (a b c : string) : (a ++ b) ++ c = a ++ (b ++ c).
Proof. induction a as [|x a IH]; simpl; [reflexivity | now rewrite IH]. Qed.

Lemma string_length_app (a b : string) :
  String.length (a ++ b) = String.length a + String.length b.
Proof. induction a as [|x a IH]; simpl; [reflexivity | now rewrite IH]. Qed.

Lemma substring_whole (s : string) : substring 0 (String.length s) s = s.
Proof. induction s as [|c s IH]; simpl; [reflexivity | now rewrite IH]. Qed.

Lemma substring_after_prefix (p s : string) :
  substring (String.length p) (String.length s) (p ++ s) = s.
Proof. induction p as [|c p IH]; simpl; [apply substring_whole | exact IH]. Qed.

Lemma substring_split (s : string) (k : nat) :
  k <= String.length s ->
  s = substring 0 k s ++ substring k (String.length s - k) s.
Proof.
  revert k; induction s as [|c s IH]; intros k Hk.
  - destruct k; reflexivity.
  - destruct k as [|k]; simpl.
    + now rewrite substring_whole.
    + simpl in Hk. f_equal.
      apply IH. lia.
Qed.

(** [endswith] is the suffix relation. *)
Lemma endswith_iff (s suffix : string) :
  endswith s suffix = true <-> exists stem, s = stem ++ suffix.
Proof.
  unfold endswith; split.
  - intros H. apply andb_true_iff in H as [Hle Heq].
    apply Nat.leb_le in Hle. apply String.eqb_eq in Heq.
    exists (substring 0 (String.length s - String.length suffix) s).
    assert (Hk : String.length s - String.length suffix <= String.length s) by lia.
    pose proof (substring_split s _ Hk) as Hs.
    replace (String.length s - (String.length s - String.length suffix))
      with (String.length suffix) in Hs by lia.
    now rewrite Heq in Hs.
  - intros [stem ->]. rewrite string_length_app.
    apply andb_true_iff; split.
    + apply Nat.leb_le. lia.
    + replace (String.length stem + String.length suffix - String.length suffix)
        with (String.length stem) by lia.
      rewrite substring_after_prefix. apply String.eqb_refl.
Qed.

(** ** The monad *)

Lemma bind_ok {A B} (t : list event) (a : A) (f : A -> M B) :
  bind (t, Ok a) f = ((t ++ fst (f a))%list, snd (f a)).
Proof. unfold bind. destruct (f a); reflexivity. Qed.

Lemma bind_raise {A B} (t : list event) (e : exn) (f : A -> M B) :
  bind (t, Raise e) f = (t, Raise e).
Proof. reflexivity. Qed.

(** ** The directory walk *)

Lemma dir_induction (P : dir -> Prop) :
  P Unlisted ->
  (forall subdirs files,
      Forall (fun entry => P (snd entry)) subdirs -> P (Dir subdirs files)) ->
  forall d, P d.
Proof.
  intros HU HD. fix IH 1. intros [|subdirs files]; [exact HU|].
  apply HD. induction subdirs as [|[name sub] l IHl]; constructor.
  - apply IH.
  - exact IHl.
Qed.


(** ** The loader *)

Section Loader.

Context {Vec : Type} (w : World Vec).

Lemma readable_docs_app (p q : list string) :
  readable_docs w (p ++ q) = (readable_docs w p ++ readable_docs w q)%list.
Proof. apply flat_map_app. Qed.

Lemma read_errors_app (p q : list string) :
  read_errors w (p ++ q) = (read_errors w p ++ read_errors w q)%list.
Proof. apply flat_map_app. Qed.

(** The inner loop never raises: a file that cannot be read leaves its
    line in the trace and the documents as they were. *)
Lemma load_files_spec (root : string) (files : list string) :
  forall docs,
    let paths := map (path_join root) (filter (fun f => endswith f ".md") files) in
    load_files w root files docs
    = (read_errors w paths, Ok (docs ++ readable_docs w paths)%list).
Proof.
  induction files as [|f files IH]; intros docs; simpl.
  - now rewrite app_nil_r.
  - destruct (endswith f ".md"); simpl; [|apply IH].
    unfold TextLoader_load.
    destruct (read_text w (path_join root f)) as [msg|text]; simpl.
    + rewrite IH. simpl. reflexivity.
    + rewrite IH. simpl. now rewrite <- app_assoc.
Qed.

Lemma load_walk_spec (items : list walk_item) :
  forall docs,
    load_walk w items docs
    = (read_errors w (eligible_paths items),
       Ok (docs ++ readable_docs w (eligible_paths items))%list).
Proof.
  induction items as [|[[root dirs] files] items IH]; intros docs; simpl.
  - now rewrite app_nil_r.
  - rewrite load_files_spec. rewrite bind_ok. rewrite IH. simpl.
    unfold eligible_paths at 1 2; simpl. fold (eligible_paths items).
    rewrite read_errors_app, readable_docs_app. now rewrite app_assoc.
Qed.

Lemma in_readable_docs (paths : list string) (d : Document) :
  In d (readable_docs w paths) <->
  In (metadata_source d) paths /\ read_text w (metadata_source d) = Gives (page_content d).
Proof.
  unfold readable_docs. rewrite in_flat_map. split.
  - intros (p & Hp & Hd). destruct (read_text w p) as [msg|text] eqn:E; simpl in Hd.
    + contradiction.
    + destruct Hd as [<-|[]]. simpl. now split.
  - intros [Hp Hr]. exists (metadata_source d). split; [exact Hp|].
    rewrite Hr. left. now destruct d.
Qed.

Lemma in_read_errors (paths : list string) (ev : event) :
  In ev (read_errors w paths) <->
  exists p msg, In p paths /\ read_text w p = Fails msg
                /\ ev = Print ("Error loading file " ++ p ++ ": " ++ msg).
Proof.
  unfold read_errors. rewrite in_flat_map. split.
  - intros (p & Hp & Hev). destruct (read_text w p) as [msg|text] eqn:E; simpl in Hev.
    + destruct Hev as [<-|[]]. now exists p, msg.
    + contradiction.
  - intros (p & msg & Hp & Hr & ->). exists p. split; [exact Hp|].
    rewrite Hr. now left.
Qed.


Lemma os_walk_end_none (path : string) :
  has_nul path = false -> os_walk_end path = None.
Proof. unfold os_walk_end. now intros ->. Qed.

Lemma os_walk_refused (path : string) :
  has_nul path = true ->
  os_walk w path = [] /\ os_walk_end path = Some (ValueError null_byte_message).
Proof. unfold os_walk, os_walk_end. now intros ->. Qed.


Lemma yielded_walk_end (path : string) :
  yielded w path <> [] -> os_walk_end path = None.
Proof.
  intros Hne. destruct (has_nul path) eqn:Hnul; [|now apply os_walk_end_none].
  exfalso. apply Hne. unfold yielded.
  now rewrite (proj1 (os_walk_refused path Hnul)).
Qed.

Lemma load_and_embed_markdown_unfold (path : string) :
  load_and_embed_markdown w path
  = match os_walk_end path with
    | Some e => (read_errors w (eligible_paths (os_walk w path)), Raise e)
    | None =>
        match yielded w path with
        | [] => (read_errors w (eligible_paths (os_walk w path)),
                 Raise (ValueError no_documents_message))
        | d :: docs =>
            ((read_errors w (eligible_paths (os_walk w path))
              ++ fst (build_vectorstore w (d :: docs)))%list,
             snd (build_vectorstore w (d :: docs)))
        end
    end.
Proof.
  unfold load_and_embed_markdown, yielded. rewrite load_walk_spec, bind_ok.
  simpl app at 2 3.
  destruct (os_walk_end path) as [e|]; simpl.
  - now rewrite app_nil_r.
  - destruct (readable_docs w (eligible_paths (os_walk w path))) as [|d docs].
    + simpl. now rewrite app_nil_r.
    + destruct (build_vectorstore w (d :: docs)). reflexivity.
Qed.

End Loader.

(** ** Building the vector store *)

Section Build.

Context {Vec : Type} (w : World Vec).

(** The construction calls the provider and nothing else, and what it
    raises is the provider's failure. *)
Lemma from_documents_cases (docs : list Document) :
  Forall (fun ev => exists text, ev = Embed text) (fst (from_documents w docs))
  /\ ((exists index, snd (from_documents w docs) = Ok index
                     /\ map document index = docs)
      \/ exists msg, snd (from_documents w docs) = Raise (ExternalError msg)).
Proof.
  induction docs as [|d docs [IHt IHr]]; simpl.
  - split; [constructor|]. left. now exists [].
  - destruct (embed_document w (page_content d)) as [msg|v]; simpl.
    + split; [repeat constructor; eauto|]. right. now exists msg.
    + destruct (from_documents w docs) as [t [index|e]]; simpl in *;
        rewrite ?app_nil_r.
      * split; [constructor; eauto|]. left.
        destruct IHr as [(index' & E & Hd)|(msg & E)]; [|discriminate].
        inversion E; subst. exists (mkEntry v d :: index'). now split.
      * split; [constructor; eauto|]. right.
        destruct IHr as [(index' & E & _)|(msg & E)]; [discriminate|].
        inversion E; subst. now exists msg.
Qed.

Lemma build_vectorstore_cases (docs : list Document) :
  Forall (fun ev => ~ serves_query ev) (fst (build_vectorstore w docs))
  /\ ((exists index, snd (build_vectorstore w docs) = Ok index
                     /\ map document index = docs)
      \/ exists msg, snd (build_vectorstore w docs) = Raise (ExternalError msg)).
Proof.
  unfold build_vectorstore.
  destruct (embeddings_new w) as [msg|[]]; simpl.
  - split; [constructor|]. right. now exists msg.
  - destruct (from_documents_cases docs) as [Ht Hr].
    destruct (from_documents w docs) as [t [index|e]]; simpl in *.
    + split; [|exact Hr].
      eapply Forall_impl; [|exact Ht]. intros ev [text ->]. simpl. tauto.
    + split; [|exact Hr].
      apply Forall_app. split.
      * eapply Forall_impl; [|exact Ht]. intros ev [text ->]. simpl. tauto.
      * repeat constructor. simpl. tauto.
Qed.

(** A failure of the construction is printed and raised again, as it is. *)
Lemma build_vectorstore_reraises (docs : list Document) (t : list event) (e : exn) :
  embeddings_new w = Gives tt ->
  from_documents w docs = (t, Raise e) ->
  build_vectorstore w docs
  = ((t ++ [Print ("Error creating vectorstore: " ++ str_exn e)])%list, Raise e).
Proof.
  intros Hnew Hfrom. unfold build_vectorstore. rewrite Hnew, Hfrom. reflexivity.
Qed.

End Build.

(** ** The loader: claims *)



Section LoaderClaims.

Context {Vec : Type} (w : World Vec).


(** C9, as the code has it. A path without a NUL byte that is no
    directory, or a directory that cannot be listed, gives an empty walk,
    and the loader raises the error of the empty directory: the outcome
    is that of an existing directory with nothing in it. A path with a
    NUL byte is refused by the walk with another [ValueError], which
    leaves the loader as it is. *)
Theorem missing_directory_as_empty (w' : World Vec) (path : string) :
  (has_nul path = false ->
   tree_at w path = None \/ tree_at w path = Some Unlisted ->
   tree_at w' path = Some (Dir [] []) ->
   os_walk w path = []
   /\ load_and_embed_markdown w path = ([], Raise (ValueError no_documents_message))
   /\ load_and_embed_markdown w path = load_and_embed_markdown w' path)
  /\ (has_nul path = true ->
      load_and_embed_markdown w path = ([], Raise (ValueError null_byte_message))).
Proof.
  split.
  - intros Hnul Hmissing Hempty.
    assert (Hwalk : os_walk w path = []).
    { unfold os_walk. rewrite Hnul. destruct Hmissing as [-> | ->]; reflexivity. }
    assert (Hwalk' : os_walk w' path = [(path, [], [])]).
    { unfold os_walk. rewrite Hnul, Hempty. reflexivity. }
    split; [exact Hwalk|].
    rewrite !load_and_embed_markdown_unfold, (os_walk_end_none path Hnul).
    unfold yielded. rewrite Hwalk, Hwalk'. split; reflexivity.
  - intros Hnul. rewrite load_and_embed_markdown_unfold.
    destruct (os_walk_refused w path Hnul) as [-> ->]. reflexivity.
Qed.



End LoaderClaims.



Lemma missing_directory_as_empty_witness :
  (os_walk sample_world "nowhere" = []
   /\ load_and_embed_markdown sample_world "nowhere"
      = ([], Raise (ValueError no_documents_message))
   /\ load_and_embed_markdown sample_world "nowhere"
      = load_and_embed_markdown sample_world_bare "nowhere")
  /\ load_and_embed_markdown sample_world ("no" ++ nul ++ "where")
     = ([], Raise (ValueError null_byte_message)).
Proof.
  split.
  - apply (proj1 (missing_directory_as_empty sample_world sample_world_bare "nowhere"));
      [reflexivity | left; reflexivity | reflexivity].
  - apply (proj2 (missing_directory_as_empty sample_world sample_world_bare
                    ("no" ++ nul ++ "where"))).
    reflexivity.
Defined.

(** C9, as the claim has it, fails: a path with a NUL byte names no
    directory, and the loader does not raise the error of the empty
    directory for it; the walk refuses the path with its own error, which
    the main script then reports before it exits. *)
Lemma nul_path_is_not_an_empty_directory :
  tree_at sample_world ("no" ++ nul ++ "where") = None
  /\ load_and_embed_markdown sample_world ("no" ++ nul ++ "where")
     = ([], Raise (ValueError "embedded null byte"))
  /\ load_and_embed_markdown sample_world ("no" ++ nul ++ "where")
     <> load_and_embed_markdown sample_world "empty"
  /\ main sample_world ["no" ++ nul ++ "where"; "what is left?"]
     = ([Input "Path to your Obsidian Vault or Markdown Directory: ";
         Print "Embedding markdown notes...";
         Print "Failed to embed markdown notes: embedded null byte"],
        Exited 1).
Proof.
  split; [reflexivity|]. split; [reflexivity|]. split; [|reflexivity].
  vm_compute. discriminate.
Qed.





(** ** The formatter *)

Lemma substring_prefix (a s : string) :
  substring 0 (String.length a) (a ++ s) = a.
Proof. induction a as [|c a IH]; simpl; [now destruct s | now rewrite IH]. Qed.

Lemma substring_middle (p a s : string) :
  substring (String.length p) (String.length a) (p ++ a ++ s) = a.
Proof. induction p as [|c p IH]; simpl; [apply substring_prefix | exact IH]. Qed.

(** C4, as the claim has it, fails: the text returned is not the prefix
    and the answer alone. *)
Lemma format_response_not_prefix_alone :
  format_response (mkResponse "what do I need to do?" "buy milk" [])
  <> "Response: " ++ "buy milk".
Proof. vm_compute. discriminate. Qed.

(** C4, as the code has it. The formatter returns the prefix, the answer
    as it is, and a line feed; the answer sits unchanged right after the
    ten characters of the prefix; an empty answer gives the prefix and the
    line feed. It is a total function of the response. *)
Theorem format_response_spec (response : Response) :
  format_response response = "Response: " ++ result response ++ nl
  /\ substring 10 (String.length (result response)) (format_response response)
     = result response
  /\ String.length (format_response response)
     = String.length (result response) + 11
  /\ forall q docs, format_response (mkResponse q "" docs) = "Response: " ++ nl.
Proof.
  repeat split.
  - apply (substring_middle "Response: ").
  - unfold format_response. rewrite !string_length_app. simpl. lia.
Qed.

(** C10. Two responses with the same answer are formatted alike, whatever
    their query and their source documents. *)
Theorem format_response_by_result (r1 r2 : Response) :
  result r1 = result r2 -> format_response r1 = format_response r2.
Proof. unfold format_response. now intros ->. Qed.

Lemma format_response_by_result_witness :
  format_response
    (mkResponse "what is left?" "buy milk" [mkDocument "- [ ] buy milk" "vault/a.md"])
  = format_response (mkResponse "todo" "buy milk" []).
Proof. apply format_response_by_result. reflexivity. Defined.

(** ** The prompt *)

Lemma str_join_cons (sep p : string) (rest : list string) :
  exists tail, str_join sep (p :: rest) = p ++ tail.
Proof.
  destruct rest as [|r rest].
  - exists "". simpl. now rewrite string_app_nil_r.
  - now exists (sep ++ str_join sep (r :: rest)).
Qed.

(** Every part is in the joined text, whole. *)
Lemma str_join_contains (sep : string) (parts : list string) (p : string) :
  In p parts -> exists before after, str_join sep parts = before ++ p ++ after.
Proof.
  induction parts as [|x parts IH]; intros Hin; [contradiction|].
  destruct Hin as [-> | Hin].
  - destruct (str_join_cons sep p parts) as [tail E]. now exists "", tail.
  - destruct (IH Hin) as (before & after & E).
    destruct parts as [|y parts]; [contradiction|].
    exists (x ++ sep ++ before), after.
    change (str_join sep (x :: y :: parts)) with (x ++ sep ++ str_join sep (y :: parts)).
    rewrite E. now rewrite !string_app_assoc.
Qed.

(** C7. The prompt has two messages: the system message is the fixed
    instruction followed by the texts of all the documents, each whole,
    joined by the separator; the human message is the question as it is.
    The prompt depends on the world through the separator alone. *)
Theorem assemble_chat_prompt {Vec : Type} (w w' : World Vec)
    (docs : list Document) (question : string) :
  document_separator w = document_separator w' ->
  assemble w chat_prompt docs question
  = Ok [mkMessage SystemRole
          (system_instruction
           ++ str_join (document_separator w) (map page_content docs));
        mkMessage HumanRole question]
  /\ (forall d, In d docs ->
        exists before after,
          str_join (document_separator w) (map page_content docs)
          = before ++ page_content d ++ after)
  /\ assemble w' chat_prompt docs question = assemble w chat_prompt docs question.
Proof.
  intros Hsep. repeat split.
  - unfold assemble, stuff_context. simpl. now rewrite !string_app_nil_r.
  - intros d Hd. apply str_join_contains. now apply in_map.
  - unfold assemble, stuff_context. now rewrite Hsep.
Qed.

Lemma assemble_chat_prompt_witness :
  assemble sample_world chat_prompt
    [mkDocument "- [ ] buy milk" "vault/a.md"; mkDocument "- [x] call mom" "vault/b.md"]
    "what do I need to do?"
  = Ok [mkMessage SystemRole
          (system_instruction ++ "- [ ] buy milk" ++ nl ++ nl ++ "- [x] call mom");
        mkMessage HumanRole "what do I need to do?"].
Proof.
  apply (assemble_chat_prompt sample_world sample_world_down). reflexivity.
Defined.

(** ** Queries *)

Section QueryClaims.

Context {Vec : Type} (w : World Vec).



Lemma execute_query_failure (chain : RetrievalQA Vec) (n : nat) (q : string)
    (t : list event) (e : exn) :
  invoke w chain n q = (t, Raise e) ->
  execute_query w chain n q
  = ((t ++ [Print ("Error executing query: " ++ str_exn e)])%list, Ok None).
Proof. intros H. unfold execute_query. rewrite H. reflexivity. Qed.

Lemma execute_query_success (chain : RetrievalQA Vec) (n : nat) (q : string)
    (t : list event) (response : Response) :
  invoke w chain n q = (t, Ok response) ->
  execute_query w chain n q = (t, Ok (Some (format_response response))).
Proof.
  intros H. unfold execute_query. rewrite H. simpl. now rewrite app_nil_r.
Qed.

Lemma execute_query_total (chain : RetrievalQA Vec) (n : nat) (q : string) :
  exists t r, execute_query w chain n q = (t, Ok r).
Proof.
  destruct (invoke w chain n q) as [t [response|e]] eqn:E.
  - rewrite (execute_query_success _ _ _ _ _ E). eauto.
  - rewrite (execute_query_failure _ _ _ _ _ E). eauto.
Qed.




End QueryClaims.


(** ** Failures at build time *)

Section BuildClaims.

Context {Vec : Type} (w : World Vec).

Lemma read_errors_no_query (paths : list string) :
  Forall (fun ev => ~ serves_query ev) (read_errors w paths).
Proof.
  apply Forall_forall. intros ev Hev. apply in_read_errors in Hev.
  destruct Hev as (p & msg & _ & _ & ->). simpl. tauto.
Qed.

(** The loader never asks for a query and never calls the language model. *)
Lemma load_no_query (path : string) :
  Forall (fun ev => ~ serves_query ev) (fst (load_and_embed_markdown w path)).
Proof.
  rewrite load_and_embed_markdown_unfold.
  destruct (os_walk_end path); [apply read_errors_no_query|].
  destruct (yielded w path) as [|d docs]; simpl.
  - apply read_errors_no_query.
  - apply Forall_app. split; [apply read_errors_no_query|].
    apply build_vectorstore_cases.
Qed.

Lemma main_load_fails (path : string) (stdin : list string) (t : list event) (e : exn) :
  load_and_embed_markdown w path = (t, Raise e) ->
  main w (path :: stdin)
  = (Input "Path to your Obsidian Vault or Markdown Directory: "
     :: Print "Embedding markdown notes..."
     :: (t ++ [Print ("Failed to embed markdown notes: " ++ str_exn e)])%list,
     Exited 1).
Proof. intros H. unfold main. rewrite H. reflexivity. Qed.

(** C8. When building the vector store fails on the documents that were
    loaded, the failure leaves the loader: a failure of the construction
    inside the [try] is printed and raised again, as it is. The main
    script prints it once more and exits with status 1, whatever lines are
    waiting on the input: it reads no query and calls no language model,
    so nothing is ever answered from a partial index. *)
Theorem build_failure_exits (path : string) (t : list event) (e : exn) :
  yielded w path <> [] ->
  build_vectorstore w (yielded w path) = (t, Raise e) ->
  let log := (read_errors w (eligible_paths (os_walk w path)) ++ t)%list in
  load_and_embed_markdown w path = (log, Raise e)
  /\ (forall t' e',
        embeddings_new w = Gives tt ->
        from_documents w (yielded w path) = (t', Raise e') ->
        e = e' /\ t = (t' ++ [Print ("Error creating vectorstore: " ++ str_exn e')])%list)
  /\ forall stdin,
       main w (path :: stdin)
       = (Input "Path to your Obsidian Vault or Markdown Directory: "
          :: Print "Embedding markdown notes..."
          :: (log ++ [Print ("Failed to embed markdown notes: " ++ str_exn e)])%list,
          Exited 1)
       /\ Forall (fun ev => ~ serves_query ev) (fst (main w (path :: stdin))).
Proof.
  intros Hne Hbuild log.
  assert (Hload : load_and_embed_markdown w path = (log, Raise e)).
  { rewrite load_and_embed_markdown_unfold, (yielded_walk_end w path Hne).
    destruct (yielded w path) as [|d docs]; [contradiction|].
    rewrite Hbuild. reflexivity. }
  split; [exact Hload|]. split.
  - intros t' e' Hnew Hfrom.
    rewrite (build_vectorstore_reraises w _ _ _ Hnew Hfrom) in Hbuild.
    inversion Hbuild; subst. now split.
  - intros stdin.
    rewrite (main_load_fails _ _ _ _ Hload). split; [reflexivity|].
    simpl. constructor; [simpl; discriminate|]. constructor; [simpl; tauto|].
    apply Forall_app. split.
    + pose proof (load_no_query path) as H. now rewrite Hload in H.
    + repeat constructor. simpl. tauto.
Qed.

End BuildClaims.

Lemma build_failure_exits_witness :
  main sample_world_down ["vault"; "what do I need to do?"; "quit"]
  = ([Input "Path to your Obsidian Vault or Markdown Directory: ";
      Print "Embedding markdown notes...";
      Print "Error loading file vault/bad.md: cannot decode";
      Embed "text of vault/a.md";
      Print "Error creating vectorstore: provider unreachable";
      Print "Failed to embed markdown notes: provider unreachable"],
     Exited 1).
Proof.
  edestruct (build_failure_exits sample_world_down "vault") as (_ & _ & Hmain).
  - vm_compute. discriminate.
  - reflexivity.
  - destruct (Hmain ["what do I need to do?"; "quit"]) as [E _].
    rewrite E. reflexivity.
Defined.

(** ** The similarity search *)

Lemma outranks_at_or_before (a b : Ranked) :
  outranks a b = true -> at_or_before a b.
Proof.
  unfold outranks, at_or_before. intros H.
  apply orb_true_iff in H. destruct H as [H | H].
  - left. apply negb_true_iff in H. apply Qnot_le_lt. intros Hle.
    apply Qle_bool_iff in Hle. congruence.
  - apply andb_true_iff in H. destruct H as [He Hp].
    apply Qeq_bool_iff in He. apply Nat.ltb_lt in Hp. right. split; [exact He | lia].
Qed.

Lemma not_outranks_at_or_before (a b : Ranked) :
  outranks a b = false -> at_or_before b a.
Proof.
  unfold outranks, at_or_before. intros H.
  apply orb_false_iff in H. destruct H as [Hle H].
  apply negb_false_iff in Hle. apply Qle_bool_iff in Hle.
  apply andb_false_iff in H.
  destruct (Qlt_le_dec (score a) (score b)) as [Hlt | Hge]; [now left|].
  right. split; [lra|].
  destruct H as [H | H].
  - exfalso. assert (He : (score a == score b)%Q) by lra.
    apply Qeq_bool_iff in He. congruence.
  - apply Nat.ltb_ge in H. exact H.
Qed.

Lemma at_or_before_trans (a b c : Ranked) :
  at_or_before a b -> at_or_before b c -> at_or_before a c.
Proof.
  unfold at_or_before. intros [H1 | [H1 P1]] [H2 | [H2 P2]].
  - left. lra.
  - left. lra.
  - left. lra.
  - right. split; [lra | lia].
Qed.

Lemma insert_ranked_length (x : Ranked) (l : list Ranked) :
  length (insert_ranked x l) = S (length l).
Proof.
  induction l as [|y l IH]; simpl; [reflexivity|].
  destruct (outranks x y); simpl; [reflexivity | now rewrite IH].
Qed.

Lemma insert_ranked_perm (x : Ranked) (l : list Ranked) :
  Permutation (insert_ranked x l) (x :: l).
Proof.
  induction l as [|y l IH]; simpl; [apply Permutation_refl|].
  destruct (outranks x y); [apply Permutation_refl|].
  eapply perm_trans; [apply perm_skip, IH | apply perm_swap].
Qed.

Lemma insert_ranked_sorted (x : Ranked) (l : list Ranked) :
  StronglySorted at_or_before l -> StronglySorted at_or_before (insert_ranked x l).
Proof.
  induction l as [|y l IH]; intros Hs; simpl.
  - repeat constructor.
  - apply StronglySorted_inv in Hs. destruct Hs as [Hs Hy].
    destruct (outranks x y) eqn:E.
    + constructor; [now constructor|].
      apply outranks_at_or_before in E. constructor; [exact E|].
      eapply Forall_impl; [|exact Hy]. intros z. now apply at_or_before_trans.
    + constructor; [now apply IH|].
      apply not_outranks_at_or_before in E.
      apply Forall_forall. intros z Hz.
      apply (Permutation_in _ (insert_ranked_perm x l)) in Hz.
      destruct Hz as [<- | Hz]; [exact E|].
      rewrite Forall_forall in Hy. now apply Hy.
Qed.

Lemma rank_all_length (l : list Ranked) : length (rank_all l) = length l.
Proof.
  induction l as [|x l IH]; simpl; [reflexivity|].
  now rewrite insert_ranked_length, IH.
Qed.

Lemma rank_all_perm (l : list Ranked) : Permutation (rank_all l) l.
Proof.
  induction l as [|x l IH]; simpl; [constructor|].
  eapply perm_trans; [apply insert_ranked_perm | now apply perm_skip].
Qed.

Lemma rank_all_sorted (l : list Ranked) : StronglySorted at_or_before (rank_all l).
Proof.
  induction l as [|x l IH]; simpl; [constructor | now apply insert_ranked_sorted].
Qed.

Lemma StronglySorted_firstn {A} (R : A -> A -> Prop) (k : nat) (l : list A) :
  StronglySorted R l -> StronglySorted R (firstn k l).
Proof.
  revert k. induction l as [|x l IH]; intros k Hs.
  - destruct k; constructor.
  - destruct k as [|k]; [constructor|]. simpl.
    apply StronglySorted_inv in Hs. destruct Hs as [Hs Hx].
    constructor; [now apply IH|].
    apply Forall_forall. intros y Hy. rewrite Forall_forall in Hx.
    apply Hx. rewrite <- (firstn_skipn k l). apply in_or_app. now left.
Qed.

Lemma StronglySorted_app_order {A} (R : A -> A -> Prop) (l1 l2 : list A) :
  StronglySorted R (l1 ++ l2) -> forall a b, In a l1 -> In b l2 -> R a b.
Proof.
  induction l1 as [|x l1 IH]; intros Hs a b Ha Hb; [contradiction|].
  simpl in Hs. apply StronglySorted_inv in Hs. destruct Hs as [Hs Hx].
  destruct Ha as [<- | Ha].
  - rewrite Forall_forall in Hx. apply Hx. apply in_or_app. now right.
  - now apply IH.
Qed.

Lemma NoDup_firstn {A} (k : nat) (l : list A) : NoDup l -> NoDup (firstn k l).
Proof.
  intros H. rewrite <- (firstn_skipn k l) in H. now apply NoDup_app_remove_r in H.
Qed.

Lemma firstn_map {A B} (f : A -> B) (k : nat) (l : list A) :
  firstn k (map f l) = map f (firstn k l).
Proof.
  revert k. induction l as [|x l IH]; intros [|k]; simpl; try reflexivity.
  now rewrite IH.
Qed.

Lemma sorted_distinct_ranks_before (l : list Ranked) :
  StronglySorted at_or_before l -> NoDup (map position l) ->
  StronglySorted ranks_before l.
Proof.
  induction l as [|x l IH]; intros Hs Hd; [constructor|].
  apply StronglySorted_inv in Hs. destruct Hs as [Hs Hx].
  simpl in Hd. apply NoDup_cons_iff in Hd. destruct Hd as [Hnew Hd].
  constructor; [now apply IH|].
  apply Forall_forall. intros y Hy. rewrite Forall_forall in Hx.
  assert (Hne : position x <> position y).
  { intros E. apply Hnew. rewrite E. now apply in_map. }
  unfold ranks_before. destruct (Hx y Hy) as [Hlt | [Heq Hle]].
  - split; [lra | intros; lra].
  - split; [lra | intros; lia].
Qed.

Section Search.

Context {Vec : Type} (w : World Vec).

Lemma score_entries_positions (qv : Vec) (index : Index Vec) :
  forall start,
    map position (score_entries w qv start index) = seq start (length index).
Proof.
  induction index as [|e index IH]; intros start; simpl; [reflexivity|].
  now rewrite IH.
Qed.

Lemma score_entries_docs (qv : Vec) (index : Index Vec) :
  forall start,
    map ranked_doc (score_entries w qv start index) = map document index.
Proof.
  induction index as [|e index IH]; intros start; simpl; [reflexivity|].
  now rewrite IH.
Qed.

Lemma in_score_entries (qv : Vec) (index : Index Vec) (r : Ranked) :
  forall start,
    In r (score_entries w qv start index) <->
    exists i e, nth_error index i = Some e
                /\ r = mkRanked (start + i) (similarity w qv (vector e)) (document e).
Proof.
  induction index as [|e index IH]; intros start; simpl.
  - split; [contradiction|]. intros ([|i] & e & H & _); discriminate.
  - rewrite IH. split.
    + intros [<- | (i & e' & Hn & ->)].
      * exists 0, e. rewrite Nat.add_0_r. now split.
      * exists (S i), e'. rewrite Nat.add_succ_r. now split.
    + intros ([|i] & e' & Hn & ->); simpl in Hn.
      * inversion Hn; subst. left. now rewrite Nat.add_0_r.
      * right. exists i, e'. rewrite Nat.add_succ_r. now split.
Qed.

Lemma in_search_with_score (index : Index Vec) (qv : Vec) (k : nat) (r : Ranked) :
  In r (search_with_score w index qv k) ->
  exists e, nth_error index (position r) = Some e
            /\ ranked_doc r = document e
            /\ score r = similarity w qv (vector e).
Proof.
  unfold search_with_score. intros H.
  assert (Hall : In r (rank_all (score_entries w qv 0 index))).
  { rewrite <- (firstn_skipn k). apply in_or_app. now left. }
  apply (Permutation_in _ (rank_all_perm _)) in Hall.
  apply in_score_entries in Hall. destruct Hall as (i & e & Hn & ->).
  exists e. now repeat split.
Qed.

End Search.

(** ** Paths of a walk are distinct *)

Lemma string_app_inv_head (a b c : string) : a ++ b = a ++ c -> b = c.
Proof.
  induction a as [|x a IH]; simpl; intros H; [exact H|].
  inversion H. now apply IH.
Qed.

Lemma no_slash_app (a b : string) : no_slash (a ++ b) = no_slash a && no_slash b.
Proof.
  induction a as [|x a IH]; simpl; [reflexivity|].
  now rewrite IH, andb_assoc.
Qed.

Lemma startswith_no_slash (c : string) : no_slash c = true -> startswith c "/" = false.
Proof.
  destruct c as [|x c]; [reflexivity|]. cbn [no_slash]. intros H.
  apply andb_true_iff in H. destruct H as [H _]. apply negb_true_iff in H.
  unfold startswith.
  change (prefix "/" (String x c))
    with (if ascii_dec "/" x then prefix "" c else false).
  destruct (ascii_dec "/" x) as [<-|]; [|reflexivity].
  vm_compute in H. discriminate.
Qed.

Lemma proper_name_inv (c : string) :
  proper_name c = true -> c <> "" /\ no_slash c = true.
Proof.
  unfold proper_name. intros H. apply andb_true_iff in H. destruct H as [H1 H2].
  split; [|exact H2]. intros ->. discriminate.
Qed.

(** A text that ends in [/] has its last character in its last part. *)
Lemma suffix_slash (a c stem : string) :
  a ++ c = stem ++ "/" -> c = "" \/ exists c0, c = c0 ++ "/".
Proof.
  revert stem. induction a as [|x a IH]; intros stem H; simpl in H.
  - right. now exists stem.
  - destruct stem as [|y stem]; simpl in H.
    + injection H as Hx Ha. left. clear IH.
      destruct a; simpl in Ha; [exact Ha | discriminate Ha].
    + injection H as Hx Ha. eapply IH; exact Ha.
Qed.

Lemma endswith_proper (a c : string) :
  proper_name c = true -> endswith (a ++ c) "/" = false.
Proof.
  intros Hc. apply proper_name_inv in Hc. destruct Hc as [Hne Hns].
  destruct (endswith (a ++ c) "/") eqn:E; [|reflexivity].
  apply endswith_iff in E. destruct E as [stem E].
  apply suffix_slash in E. destruct E as [-> | [c0 ->]]; [contradiction|].
  rewrite no_slash_app in Hns. simpl in Hns. rewrite andb_false_r in Hns. discriminate.
Qed.

Lemma path_join_top (top c : string) :
  no_slash c = true -> path_join top c = dir_prefix top ++ c.
Proof.
  intros Hc. unfold path_join, dir_prefix. rewrite (startswith_no_slash _ Hc).
  destruct (String.eqb top "" || endswith top "/"); [reflexivity|].
  now rewrite string_app_assoc.
Qed.

Lemma path_join_below (x c c2 : string) :
  proper_name c = true -> no_slash c2 = true ->
  path_join (x ++ c) c2 = (x ++ c ++ "/") ++ c2.
Proof.
  intros Hc Hc2. unfold path_join. rewrite (startswith_no_slash _ Hc2).
  rewrite (endswith_proper _ _ Hc).
  assert (E : String.eqb (x ++ c) "" = false).
  { apply String.eqb_neq. intros E. apply proper_name_inv in Hc. destruct Hc as [Hne _].
    apply Hne. destruct x; [exact E | discriminate]. }
  rewrite E. simpl. now rewrite !string_app_assoc.
Qed.

(** The path of a file, from the names that lead to it. *)
Lemma fold_path_join (cs : list string) :
  forall x c,
    proper_name c = true -> forallb proper_name cs = true ->
    fold_left path_join cs (x ++ c) = x ++ str_join "/" (c :: cs).
Proof.
  induction cs as [|c2 cs IH]; intros x c Hc Hcs; [reflexivity|].
  simpl in Hcs. apply andb_true_iff in Hcs. destruct Hcs as [Hc2 Hcs].
  cbn [fold_left]. rewrite path_join_below;
    [| exact Hc | now apply proper_name_inv in Hc2].
  rewrite (IH _ _ Hc2 Hcs).
  change (str_join "/" (c :: c2 :: cs)) with (c ++ "/" ++ str_join "/" (c2 :: cs)).
  now rewrite !string_app_assoc.
Qed.

Lemma path_of_components (top c : string) (cs : list string) :
  forallb proper_name (c :: cs) = true ->
  fold_left path_join (c :: cs) top = dir_prefix top ++ str_join "/" (c :: cs).
Proof.
  intros H. simpl in H. apply andb_true_iff in H. destruct H as [Hc Hcs].
  cbn [fold_left]. rewrite path_join_top by now apply proper_name_inv in Hc.
  now apply fold_path_join.
Qed.

Lemma split_at_slash (a a' r r' : string) :
  no_slash a = true -> no_slash a' = true ->
  a ++ "/" ++ r = a' ++ "/" ++ r' -> a = a' /\ r = r'.
Proof.
  revert a'. induction a as [|x a IH]; intros a' Ha Ha' H.
  - destruct a' as [|y a']; simpl in H.
    + inversion H. now split.
    + inversion H; subst. simpl in Ha'. discriminate.
  - destruct a' as [|y a']; simpl in H.
    + inversion H; subst. simpl in Ha. discriminate.
    + inversion H; subst. simpl in Ha, Ha'.
      apply andb_true_iff in Ha, Ha'.
      destruct (IH a' (proj2 Ha) (proj2 Ha') H2) as [-> ->]. now split.
Qed.

Lemma str_join_slash_inj (cs : list string) :
  forall cs',
    cs <> [] -> cs' <> [] ->
    forallb proper_name cs = true -> forallb proper_name cs' = true ->
    str_join "/" cs = str_join "/" cs' -> cs = cs'.
Proof.
  induction cs as [|c cs IH]; intros cs' Hne Hne' Hp Hp' E; [contradiction|].
  destruct cs' as [|c' cs']; [contradiction|].
  simpl in Hp, Hp'. apply andb_true_iff in Hp, Hp'.
  destruct Hp as [Hc Hcs], Hp' as [Hc' Hcs'].
  apply proper_name_inv in Hc, Hc'. destruct Hc as [_ Hc], Hc' as [_ Hc'].
  destruct cs as [|c2 cs], cs' as [|c2' cs'].
  - simpl in E. now subst.
  - exfalso. simpl in E. subst c. rewrite !no_slash_app in Hc. simpl in Hc.
    rewrite andb_false_r in Hc. discriminate.
  - exfalso. simpl in E. subst c'. rewrite !no_slash_app in Hc'. simpl in Hc'.
    rewrite andb_false_r in Hc'. discriminate.
  - change (c ++ "/" ++ str_join "/" (c2 :: cs)
            = c' ++ "/" ++ str_join "/" (c2' :: cs')) in E.
    apply split_at_slash in E; [|assumption|assumption]. destruct E as [-> E].
    f_equal. apply IH; [discriminate | discriminate | assumption | assumption | exact E].
Qed.

Lemma str_in_In (x : string) (l : list string) : str_in x l = true <-> In x l.
Proof.
  induction l as [|y l IH]; simpl; [split; [discriminate | contradiction]|].
  rewrite orb_true_iff, IH, String.eqb_eq. split; intros [H|H]; auto.
Qed.

Lemma distinct_NoDup (l : list string) : distinct l = true -> NoDup l.
Proof.
  induction l as [|x l IH]; simpl; intros H; [constructor|].
  apply andb_true_iff in H. destruct H as [Hx Hl]. constructor; [|now apply IH].
  intros Hin. apply str_in_In in Hin. rewrite Hin in Hx. discriminate.
Qed.

Lemma eligible_paths_app (a b : list walk_item) :
  eligible_paths (a ++ b) = (eligible_paths a ++ eligible_paths b)%list.
Proof. apply flat_map_app. Qed.

(** The paths the loader opens are the joined names of the eligible files. *)
Lemma eligible_paths_components (d : dir) :
  forall top,
    eligible_paths (os_walk_dir top d)
    = map (fun cs => fold_left path_join cs top) (eligible_components d).
Proof.
  induction d as [|subdirs files IH] using dir_induction; intros top; [reflexivity|].
  cbn [os_walk_dir eligible_components].
  change (eligible_paths ((top, map fst subdirs, files) :: ?l))
    with (map (path_join top) (filter (fun f => endswith f ".md") files)
          ++ eligible_paths l)%list.
  rewrite map_app, map_map. f_equal.
  induction subdirs as [|[name sub] subdirs IHs]; [reflexivity|].
  apply Forall_cons_iff in IH. destruct IH as [IHsub IHrest].
  cbn [flat_map]. rewrite eligible_paths_app, map_app, (IHs IHrest). f_equal.
  simpl. rewrite IHsub, map_map. reflexivity.
Qed.

Lemma components_proper (d : dir) :
  well_formed d = true ->
  forall cs, In cs (eligible_components d) ->
             cs <> [] /\ forallb proper_name cs = true.
Proof.
  induction d as [|subdirs files IH] using dir_induction; intros Hwf cs Hin;
    [contradiction|].
  cbn [well_formed] in Hwf. repeat (apply andb_true_iff in Hwf; destruct Hwf as [Hwf ?]).
  cbn [eligible_components] in Hin. apply in_app_or in Hin. destruct Hin as [Hin | Hin].
  - apply in_map_iff in Hin. destruct Hin as (f & <- & Hf).
    apply filter_In in Hf. destruct Hf as [Hf _].
    split; [discriminate|]. simpl. rewrite andb_true_r.
    match goal with H : forallb proper_name files = true |- _ =>
      rewrite forallb_forall in H; now apply H end.
  - apply in_flat_map in Hin. destruct Hin as ([name sub] & He & Hcs).
    apply in_map_iff in Hcs. destruct Hcs as (cs' & <- & Hcs').
    split; [discriminate|]. rewrite Forall_forall in IH.
    match goal with H : forallb (fun _ => well_formed _) subdirs = true |- _ =>
      rewrite forallb_forall in H; pose proof (H _ He) as Hsub end.
    destruct (IH _ He Hsub _ Hcs') as [_ Hp]. simpl. rewrite Hp, andb_true_r.
    match goal with H : forallb proper_name (map fst subdirs) = true |- _ =>
      rewrite forallb_forall in H; apply H end.
    now apply (in_map fst) in He.
Qed.

Lemma NoDup_map_injective_on {A B} (g : A -> B) (l : list A) :
  (forall x y, In x l -> In y l -> g x = g y -> x = y) ->
  NoDup l -> NoDup (map g l).
Proof.
  induction l as [|x l IH]; intros Hg Hd; simpl; [constructor|].
  apply NoDup_cons_iff in Hd. destruct Hd as [Hx Hd]. constructor.
  - intros Hin. apply in_map_iff in Hin. destruct Hin as (y & E & Hy).
    apply Hx. rewrite (Hg x y); [exact Hy | now left | now right | now symmetry].
  - apply IH; [|exact Hd]. intros y z Hy Hz. apply Hg; now right.
Qed.

Lemma components_NoDup (d : dir) :
  well_formed d = true -> NoDup (eligible_components d).
Proof.
  induction d as [|subdirs files IH] using dir_induction; intros Hwf; [constructor|].
  cbn [well_formed] in Hwf. repeat (apply andb_true_iff in Hwf; destruct Hwf as [Hwf ?]).
  cbn [eligible_components]. apply NoDup_app; repeat split.
  - apply NoDup_map_injective_on; [intros x y _ _ E; now inversion E|].
    apply NoDup_filter. now apply distinct_NoDup.
  - apply distinct_NoDup in Hwf.
    match goal with H : forallb (fun _ => well_formed _) subdirs = true |- _ =>
      rename H into Hsubs end.
    clear - IH Hwf Hsubs.
    induction subdirs as [|[name sub] subdirs IHs]; [constructor|].
    apply Forall_cons_iff in IH. destruct IH as [IHsub IHrest].
    simpl in Hwf. apply NoDup_cons_iff in Hwf. destruct Hwf as [Hname Hwf].
    simpl in Hsubs. apply andb_true_iff in Hsubs. destruct Hsubs as [Hsub Hsubs].
    cbn [flat_map]. apply NoDup_app; repeat split.
    + apply NoDup_map_injective_on; [intros x y _ _ E; now inversion E|].
      now apply IHsub.
    + now apply IHs.
    + intros cs Hcs Hcs'. simpl in Hcs. apply in_map_iff in Hcs.
      destruct Hcs as (cs0 & <- & _).
      apply in_flat_map in Hcs'. destruct Hcs' as ([name' sub'] & He & Hcs').
      apply in_map_iff in Hcs'. destruct Hcs' as (cs1 & E & _).
      simpl in E. inversion E; subst. apply Hname. now apply (in_map fst) in He.
  - intros cs Hcs Hcs'. apply in_map_iff in Hcs. destruct Hcs as (f & <- & _).
    apply in_flat_map in Hcs'. destruct Hcs' as ([name sub] & He & Hcs').
    apply in_map_iff in Hcs'. destruct Hcs' as (cs1 & E & Hcs1).
    simpl in E. inversion E; subst.
    rewrite Forall_forall in IH.
    match goal with H : forallb (fun _ => well_formed _) subdirs = true |- _ =>
      rewrite forallb_forall in H; pose proof (H _ He) as Hsub end.
    destruct (components_proper sub Hsub [] Hcs1) as [Hne _]. now apply Hne.
Qed.

(** In a well-formed tree no two files have the same path. *)
Lemma eligible_paths_NoDup (top : string) (d : dir) :
  well_formed d = true -> NoDup (eligible_paths (os_walk_dir top d)).
Proof.
  intros Hwf. rewrite eligible_paths_components.
  apply NoDup_map_injective_on; [|now apply components_NoDup].
  intros cs cs' Hcs Hcs' E.
  destruct (components_proper d Hwf cs Hcs) as [Hne Hp].
  destruct (components_proper d Hwf cs' Hcs') as [Hne' Hp'].
  destruct cs as [|c cs]; [contradiction|]. destruct cs' as [|c' cs']; [contradiction|].
  rewrite !path_of_components in E by assumption.
  apply string_app_inv_head in E. now apply str_join_slash_inj.
Qed.

Section LoadedIndex.

Context {Vec : Type} (w : World Vec).

Lemma readable_docs_sources (paths : list string) :
  map metadata_source (readable_docs w paths)
  = filter (fun p => match read_text w p with Gives _ => true | Fails _ => false end)
           paths.
Proof.
  induction paths as [|p paths IH]; simpl; [reflexivity|].
  destruct (read_text w p) as [msg|text]; simpl; now rewrite IH.
Qed.

(** The documents of a well-formed directory have distinct sources, and
    so have the entries of the index built from them. *)
Lemma loaded_index_distinct_sources (path : string) (t : list event) (index : Index Vec) :
  (forall d, tree_at w path = Some d -> well_formed d = true) ->
  load_and_embed_markdown w path = (t, Ok index) ->
  NoDup (map (fun e => metadata_source (document e)) index).
Proof.
  intros Hwf Hload. rewrite load_and_embed_markdown_unfold in Hload.
  assert (Hdocs : NoDup (map metadata_source (yielded w path))).
  { unfold yielded. rewrite readable_docs_sources. apply NoDup_filter.
    unfold os_walk. destruct (has_nul path); [constructor|].
    destruct (tree_at w path) as [d|]; [|constructor].
    apply eligible_paths_NoDup. now apply Hwf. }
  destruct (os_walk_end path); [discriminate|].
  destruct (yielded w path) as [|d docs]; [discriminate|].
  destruct (build_vectorstore_cases w (d :: docs)) as [_ [(index' & E & Hd)|(m & E)]].
  - inversion Hload as [[Ht Hr]]. rewrite E in Hr. inversion Hr; subst.
    rewrite <- map_map, Hd. exact Hdocs.
  - inversion Hload as [[Ht Hr]]. rewrite E in Hr. discriminate.
Qed.

(** C1. The search returns [min k n] entries of an index of [n], so never
    more than [k] and all [n] of them when [n < k]; every one is an entry
    of the index with its own document and score, none twice, and no
    source path twice when the index has none twice, as every index that
    the loader builds from a well-formed directory; the entries come in
    non-increasing order of score, ties in insertion order; every entry
    left out scores no higher than any entry returned. The search on a
    query text embeds the text and returns this list, and the retriever
    of the chain searches with [k = 5]. *)
Theorem search_returns_top_k (index : Index Vec) (qv : Vec) (k : nat) :
  let found := search_with_score w index qv k in
  length found = Nat.min k (length index)
  /\ length found <= k
  /\ (length index < k -> length found = length index)
  /\ (forall r, In r found ->
        exists e, nth_error index (position r) = Some e
                  /\ ranked_doc r = document e
                  /\ score r = similarity w qv (vector e))
  /\ NoDup (map position found)
  /\ (NoDup (map (fun e => metadata_source (document e)) index) ->
      NoDup (map (fun r => metadata_source (ranked_doc r)) found))
  /\ (forall path t,
        (forall d, tree_at w path = Some d -> well_formed d = true) ->
        load_and_embed_markdown w path = (t, Ok index) ->
        NoDup (map (fun r => metadata_source (ranked_doc r)) found))
  /\ StronglySorted ranks_before found
  /\ (forall r i e,
        In r found -> nth_error index i = Some e ->
        ~ In i (map position found) ->
        (similarity w qv (vector e) <= score r)%Q)
  /\ (forall n q,
        embed_query w n q = Gives qv ->
        search w index n q k = ([Embed q], Ok found))
  /\ (forall t chain,
        setup_rag_chain w index = (t, Ok chain) ->
        qa_retriever chain = as_retriever index 5).
Proof.
  intros found.
  pose (all := rank_all (score_entries w qv 0 index)).
  assert (Hperm : Permutation all (score_entries w qv 0 index)) by apply rank_all_perm.
  assert (Hlen : length found = Nat.min k (length index)).
  { unfold found, search_with_score. rewrite length_firstn, rank_all_length.
    f_equal. clear. generalize 0. induction index as [|e l IH]; intros s; simpl;
      [reflexivity | now rewrite IH]. }
  assert (Hpos : NoDup (map position all)).
  { apply (Permutation_NoDup (Permutation_sym (Permutation_map position Hperm))).
    rewrite score_entries_positions. apply seq_NoDup. }
  assert (Hsrc : NoDup (map (fun e => metadata_source (document e)) index) ->
                 NoDup (map (fun r => metadata_source (ranked_doc r)) found)).
  { intros Hd. unfold found, search_with_score. rewrite <- firstn_map.
    apply NoDup_firstn.
    apply (Permutation_NoDup
             (Permutation_sym
                (Permutation_map (fun r => metadata_source (ranked_doc r)) Hperm))).
    rewrite <- map_map, score_entries_docs, map_map. exact Hd. }
  assert (Hfound_pos : NoDup (map position found)).
  { unfold found, search_with_score. rewrite <- firstn_map. now apply NoDup_firstn. }
  split; [exact Hlen|]. split; [lia|]. split; [lia|].
  split; [intros r; apply in_search_with_score|].
  split; [exact Hfound_pos|]. split; [exact Hsrc|].
  split; [intros path t Hwf Hload; apply Hsrc;
          now apply (loaded_index_distinct_sources path t)|].
  split.
  { apply sorted_distinct_ranks_before; [|exact Hfound_pos].
    apply StronglySorted_firstn. apply rank_all_sorted. }
  split.
  { intros r i e Hr Hn Hi.
    assert (Hin : In (mkRanked i (similarity w qv (vector e)) (document e)) all).
    { apply (Permutation_in _ (Permutation_sym Hperm)).
      apply in_score_entries. now exists i, e. }
    unfold all in Hin. rewrite <- (firstn_skipn k) in Hin.
    apply in_app_or in Hin. destruct Hin as [Hin | Hin].
    - exfalso. apply Hi. apply (in_map position) in Hin. exact Hin.
    - pose proof (rank_all_sorted (score_entries w qv 0 index)) as Hs.
      rewrite <- (firstn_skipn k) in Hs.
      pose proof (StronglySorted_app_order _ _ _ Hs _ _ Hr Hin) as Hrb.
      unfold at_or_before in Hrb. simpl in Hrb. destruct Hrb as [H | [H _]]; lra. }
  split.
  { intros n q He. unfold search. rewrite He. reflexivity. }
  intros t chain Hsetup. unfold setup_rag_chain in Hsetup.
  destruct (llm_new w) as [msg|[]]; simpl in Hsetup; [discriminate|].
  now inversion Hsetup.
Qed.

End LoadedIndex.

Lemma search_returns_top_k_witness :
  map ranked_doc (search_with_score sample_world sample_index (inject_Z 6) 5)
  = [mkDocument "text of vault/a.md" "vault/a.md";
     mkDocument "text of vault/sub/b.md" "vault/sub/b.md"]
  /\ NoDup (map (fun r => metadata_source (ranked_doc r))
                (search_with_score sample_world sample_index (inject_Z 6) 5))
  /\ length (search_with_score sample_world sample_index (inject_Z 6) 5) = 2.
Proof.
  destruct (search_returns_top_k sample_world sample_index (inject_Z 6) 5)
    as (_ & _ & Hfew & _ & _ & Hsrc & Hload & _).
  split; [reflexivity|]. split.
  - apply (Hload "vault" (fst (load_and_embed_markdown sample_world "vault"))).
    + intros d Hd. vm_compute in Hd. inversion Hd. reflexivity.
    + reflexivity.
  - apply Hfew. simpl. lia.
Defined.

(** * Further properties of the script *)

(** ** The loader *)

Lemma string_app_inv_tail (a b c : string) : a ++ c = b ++ c -> a = b.
Proof.
  revert b. induction a as [|x a IH]; intros b H.
  - destruct b as [|y b]; [reflexivity|]. exfalso.
    assert (L : String.length c = String.length (String y b ++ c)) by now rewrite <- H.
    rewrite string_length_app in L. simpl in L. lia.
  - destruct b as [|y b].
    + exfalso.
      assert (L : String.length (String x a ++ c) = String.length c) by now rewrite H.
      rewrite string_length_app in L. simpl in L. lia.
    + simpl in H. injection H as -> H. f_equal. now apply IH.
Qed.

Lemma path_join_suffix (root f : string) : exists pre, path_join root f = pre ++ f.
Proof.
  unfold path_join. destruct (startswith f "/").
  - now exists "".
  - destruct (String.eqb root "" || endswith root "/").
    + now exists root.
    + exists (root ++ "/"). now rewrite string_app_assoc.
Qed.

Lemma eligible_paths_end_md (items : list walk_item) (p : string) :
  In p (eligible_paths items) -> endswith p ".md" = true.
Proof.
  unfold eligible_paths. rewrite in_flat_map.
  intros ([[root dirs] files] & _ & Hp). simpl in Hp.
  apply in_map_iff in Hp. destruct Hp as (f & <- & Hf).
  apply filter_In in Hf. destruct Hf as [_ Hmd].
  apply endswith_iff in Hmd. destruct Hmd as [stem ->].
  destruct (path_join_suffix root (stem ++ ".md")) as [pre ->].
  apply endswith_iff. exists (pre ++ stem). now rewrite string_app_assoc.
Qed.

Lemma prefix_app (p x : string) : String.prefix p (p ++ x) = true.
Proof. apply prefix_correct. apply substring_prefix. Qed.

Lemma readable_docs_cons {Vec : Type} (w : World Vec) (p : string) (paths : list string) :
  readable_docs w (p :: paths)
  = (match read_text w p with
     | Gives text => [mkDocument text p]
     | Fails _ => []
     end ++ readable_docs w paths)%list.
Proof. reflexivity. Qed.

Lemma read_errors_cons {Vec : Type} (w : World Vec) (p : string) (paths : list string) :
  read_errors w (p :: paths)
  = (match read_text w p with
     | Gives _ => []
     | Fails msg => [Print ("Error loading file " ++ p ++ ": " ++ msg)]
     end ++ read_errors w paths)%list.
Proof. reflexivity. Qed.

Section LoaderFacts.

Context {Vec : Type} (w : World Vec).


(** X2. Every entry of an index that the loader returns comes from a file
    whose path ends in [.md], and holds the text read at that path. *)
Theorem index_entries_are_markdown (path : string) (t : list event)
    (index : Index Vec) (e : IndexEntry Vec) :
  load_and_embed_markdown w path = (t, Ok index) ->
  In e index ->
  endswith (metadata_source (document e)) ".md" = true
  /\ read_text w (metadata_source (document e)) = Gives (page_content (document e)).
Proof.
  intros Hload He. rewrite load_and_embed_markdown_unfold in Hload.
  destruct (os_walk_end path); [discriminate|].
  assert (Hy : In (document e) (yielded w path)).
  { destruct (yielded w path) as [|d docs]; [discriminate|].
    injection Hload as _ Hr.
    destruct (build_vectorstore_cases w (d :: docs)) as [_ [(index' & E & Hd)|(m & E)]];
      [|congruence].
    rewrite E in Hr. injection Hr as ->. rewrite <- Hd. now apply in_map. }
  apply in_readable_docs in Hy. destruct Hy as [Hp Hr].
  split; [|exact Hr]. now apply eligible_paths_end_md in Hp.
Qed.

(** X3. The loader never opens a file whose name does not end in [.md]:
    two worlds that read the markdown paths alike load the same documents
    and print the same lines, whatever the other files hold. *)
Theorem other_files_are_never_read (w' : World Vec) (items : list walk_item) :
  (forall p, endswith p ".md" = true -> read_text w p = read_text w' p) ->
  load_walk w items [] = load_walk w' items [].
Proof.
  intros Hsame. rewrite !load_walk_spec.
  assert (H : forall paths,
             (forall p, In p paths -> endswith p ".md" = true) ->
             read_errors w paths = read_errors w' paths
             /\ readable_docs w paths = readable_docs w' paths).
  { induction paths as [|p paths IH]; intros Hmd; [now split|].
    destruct IH as [IHe IHd]; [intros q Hq; apply Hmd; now right|].
    rewrite !readable_docs_cons, !read_errors_cons.
    rewrite <- (Hsame p) by (apply Hmd; now left). now rewrite IHe, IHd. }
  destruct (H (eligible_paths items) (eligible_paths_end_md items)) as [-> ->].
  reflexivity.
Qed.

(** X4. In a well-formed directory no two loaded documents have the same
    source path. *)
Theorem loaded_documents_distinct (path : string) :
  (forall d, tree_at w path = Some d -> well_formed d = true) ->
  NoDup (map metadata_source (yielded w path)).
Proof.
  intros Hwf. unfold yielded. rewrite readable_docs_sources. apply NoDup_filter.
  unfold os_walk. destruct (has_nul path); [constructor|].
  destruct (tree_at w path) as [d|]; [|constructor].
  apply eligible_paths_NoDup. now apply Hwf.
Qed.

(** X5. In a well-formed directory the source path of every loaded
    document starts with the directory path that was given. *)
Theorem loaded_sources_below_path (path : string) (doc : Document) :
  (forall d, tree_at w path = Some d -> well_formed d = true) ->
  In doc (yielded w path) ->
  startswith (metadata_source doc) path = true.
Proof.
  intros Hwf Hdoc. apply in_readable_docs in Hdoc. destruct Hdoc as [Hp _].
  unfold os_walk in Hp. destruct (has_nul path); [contradiction|].
  destruct (tree_at w path) as [d|] eqn:Hd; [|contradiction].
  rewrite eligible_paths_components in Hp. apply in_map_iff in Hp.
  destruct Hp as (cs & <- & Hcs).
  destruct (components_proper d (Hwf d eq_refl) cs Hcs) as [Hne Hproper].
  destruct cs as [|c cs]; [contradiction|].
  rewrite path_of_components by exact Hproper.
  unfold startswith, dir_prefix.
  destruct (String.eqb path "" || endswith path "/").
  - apply prefix_app.
  - rewrite string_app_assoc. apply prefix_app.
Qed.

(** X6. When the embeddings client cannot be built, the failure leaves
    the loader as it is: no call of the provider is made and, the client
    being built outside the [try], no line about the vector store is
    printed; the main script reports the failure and exits with status 1. *)
Theorem embeddings_client_failure (path msg : string) :
  yielded w path <> [] ->
  embeddings_new w = Fails msg ->
  load_and_embed_markdown w path
  = (read_errors w (eligible_paths (os_walk w path)), Raise (ExternalError msg))
  /\ forall stdin,
       main w (path :: stdin)
       = (Input "Path to your Obsidian Vault or Markdown Directory: "
          :: Print "Embedding markdown notes..."
          :: (read_errors w (eligible_paths (os_walk w path))
              ++ [Print ("Failed to embed markdown notes: " ++ msg)])%list,
          Exited 1).
Proof.
  intros Hne Hnew.
  assert (Hload : load_and_embed_markdown w path
                  = (read_errors w (eligible_paths (os_walk w path)),
                     Raise (ExternalError msg))).
  { rewrite load_and_embed_markdown_unfold, (yielded_walk_end w path Hne).
    destruct (yielded w path) as [|d docs]; [contradiction|].
    unfold build_vectorstore. rewrite Hnew. simpl. now rewrite app_nil_r. }
  split; [exact Hload|]. intros stdin. unfold main. rewrite Hload. reflexivity.
Qed.

End LoaderFacts.

Lemma index_entries_are_markdown_witness :
  endswith "vault/sub/b.md" ".md" = true
  /\ read_text sample_world "vault/sub/b.md" = Gives "text of vault/sub/b.md".
Proof.
  apply (index_entries_are_markdown sample_world "vault"
           (fst (load_and_embed_markdown sample_world "vault")) sample_index
           (mkEntry (inject_Z 22)
                    (mkDocument "text of vault/sub/b.md" "vault/sub/b.md"))).
  - reflexivity.
  - right. now left.
Defined.

Lemma other_files_are_never_read_witness :
  load_walk sample_world (os_walk sample_world "vault") []
  = load_walk sample_world_locked_others (os_walk sample_world "vault") [].
Proof.
  apply other_files_are_never_read. intros p Hp. simpl. now rewrite Hp.
Defined.

Lemma loaded_documents_distinct_witness :
  NoDup (map metadata_source (yielded sample_world "vault")).
Proof.
  apply loaded_documents_distinct.
  intros d Hd. vm_compute in Hd. inversion Hd. reflexivity.
Defined.

Lemma loaded_sources_below_path_witness :
  startswith "vault/sub/b.md" "vault" = true.
Proof.
  apply (loaded_sources_below_path sample_world "vault"
           (mkDocument "text of vault/sub/b.md" "vault/sub/b.md")).
  - intros d Hd. vm_compute in Hd. inversion Hd. reflexivity.
  - vm_compute. tauto.
Defined.

Lemma embeddings_client_failure_witness :
  main sample_world_no_embeddings ["vault"; "what is left?"]
  = ([Input "Path to your Obsidian Vault or Markdown Directory: ";
      Print "Embedding markdown notes...";
      Print "Error loading file vault/bad.md: cannot decode";
      Print "Failed to embed markdown notes: no API key"],
     Exited 1).
Proof.
  edestruct (embeddings_client_failure sample_world_no_embeddings "vault") as [_ Hmain].
  - vm_compute. discriminate.
  - reflexivity.
  - rewrite Hmain. reflexivity.
Defined.

(** ** The formatter *)

(** X7. The answer can be read back from the formatted text: two
    responses are formatted alike exactly when their answers are equal. *)
Theorem format_response_injective (r1 r2 : Response) :
  format_response r1 = format_response r2 <-> result r1 = result r2.
Proof.
  unfold format_response. split.
  - intros H. apply string_app_inv_head in H. now apply string_app_inv_tail in H.
  - now intros ->.
Qed.

Lemma format_response_injective_witness :
  result (mkResponse "todo" "buy milk" []) = result (mkResponse "what?" "buy milk" []).
Proof. apply format_response_injective. reflexivity. Defined.

(** ** The main script and its loop *)

Section LoopFacts.

Context {Vec : Type} (w : World Vec).


(** X8. When the language-model client cannot be built, the main script
    prints the failure after the index is built and exits with status 1:
    no query is read, whatever lines are waiting on the input. *)
Theorem chain_setup_failure (path msg : string) (t : list event) (index : Index Vec) :
  load_and_embed_markdown w path = (t, Ok index) ->
  llm_new w = Fails msg ->
  forall stdin,
    main w (path :: stdin)
    = (Input "Path to your Obsidian Vault or Markdown Directory: "
       :: Print "Embedding markdown notes..."
       :: (t ++ [Print "Setting up retrieval-augmented QA (RAG)...";
                 Print ("Failed to set up RAG chain: " ++ msg)])%list,
       Exited 1)
    /\ filter is_query_prompt (fst (main w (path :: stdin))) = [].
Proof.
  intros Hload Hllm stdin.
  assert (E : main w (path :: stdin)
              = (Input "Path to your Obsidian Vault or Markdown Directory: "
                 :: Print "Embedding markdown notes..."
                 :: (t ++ [Print "Setting up retrieval-augmented QA (RAG)...";
                           Print ("Failed to set up RAG chain: " ++ msg)])%list,
                 Exited 1)).
  { unfold main, setup_rag_chain. rewrite Hload, Hllm. unfold after. simpl.
    now rewrite <- app_assoc. }
  split; [exact E|]. rewrite E. cbn [fst]. simpl. rewrite filter_app. simpl.
  rewrite app_nil_r.
  pose proof (load_no_query w path) as Hq. rewrite Hload in Hq. simpl in Hq.
  clear - Hq. induction t as [|ev t IH]; [reflexivity|].
  apply Forall_cons_iff in Hq. destruct Hq as [Hev Hq]. simpl.
  destruct ev as [line|prompt|text|messages]; simpl in *; try now apply IH.
  destruct (String.eqb prompt "Enter your query: ") eqn:Ep; [|now apply IH].
  apply String.eqb_eq in Ep. contradiction.
Qed.


(** X10. The loop stops at the first [exit] or [quit] line: the lines
    after it are never read, and the session ends normally. *)
Theorem lines_after_exit_are_not_read (chain : RetrievalQA Vec)
    (before : list string) (q : string) (rest : list string) :
  no_exit_word before = true ->
  str_in (lower q) ["exit"; "quit"] = true ->
  forall n,
    query_loop w chain n (before ++ q :: rest) = query_loop w chain n (before ++ [q])
    /\ snd (query_loop w chain n (before ++ q :: rest)) = Finished.
Proof.
  intros Hno Hq. induction before as [|b before IH]; intros n.
  - cbn [app query_loop]. rewrite Hq. now split.
  - cbn [no_exit_word forallb] in Hno. apply andb_true_iff in Hno.
    destruct Hno as [Hb Hno]. apply negb_true_iff in Hb.
    cbn [app query_loop]. rewrite Hb.
    destruct (execute_query_total w chain n b) as (t & r & ->).
    destruct (IH Hno (S n)) as [E Hs]. rewrite E. split; [reflexivity|].
    unfold after. cbn [snd]. now rewrite <- E.
Qed.


End LoopFacts.

Lemma chain_setup_failure_witness :
  main sample_world_no_llm ["vault"; "what is left?"]
  = ([Input "Path to your Obsidian Vault or Markdown Directory: ";
      Print "Embedding markdown notes...";
      Print "Error loading file vault/bad.md: cannot decode";
      Embed "text of vault/a.md"; Embed "text of vault/sub/b.md";
      Print "Setting up retrieval-augmented QA (RAG)...";
      Print "Failed to set up RAG chain: no API key"],
     Exited 1).
Proof.
  edestruct (chain_setup_failure sample_world_no_llm "vault") as [E _].
  - reflexivity.
  - reflexivity.
  - rewrite E. reflexivity.
Defined.


Lemma lines_after_exit_are_not_read_witness :
  query_loop sample_world sample_chain 0 ["first"; "QUIT"; "second"; "third"]
  = query_loop sample_world sample_chain 0 ["first"; "QUIT"].
Proof.
  apply (lines_after_exit_are_not_read sample_world sample_chain
           ["first"] "QUIT" ["second"; "third"]); reflexivity.
Defined.

